(** * Hero video controller (static/js/home.js)

    A shallow embedding of the page script that wires the hero video to its
    overlay play button and its pause button, and the properties of its three
    event reactions.

    Modelling choices, all read off the source:
    - the document is a store of elements keyed by id; an element reference
      held by the script (the constants [video], [playButton], [pauseButton])
      is the key of the element in that store, so the three references are
      pairwise distinct and a write through one is seen through every other
      use of it;
    - [classList] is the element's ordered token set, as a duplicate-free
      list in attribute order;
    - [video.play()] and [video.pause()] belong to the host's media engine:
      the model records each invocation, in order, in a log, and takes
      [#heroVideo] to be a media element, whose two methods return normally;
    - the stylesheet, which alone decides what a class means on screen, is a
      component of the world that no operation of the script looks at;
    - an event fired at an element runs the listeners registered on that
      element for that event type, in registration order; neither control is
      taken to be nested in the other, so a click on one does not reach the
      listener of the other, and ['ended'] does not bubble. *)

From stdpp Require Import gmap strings list fin_maps.

Set Warnings "-clear-no-such-hyp".

Local Open Scope string_scope.
Local Open Scope list_scope.

(** ** The DOM fragment the script touches *)

Module DOMTokenList.

(** [classList.contains(tok)] *)
Definition contains (tok : string) (l : list string) : bool :=
  bool_decide (tok ∈ l).

(** [classList.add(tok)]: a token already in the set is not added again;
    a new one goes to the end. *)
Definition add (tok : string) (l : list string) : list string :=
  if decide (tok ∈ l) then l else l ++ [tok].

(** [classList.remove(tok)]: the other tokens keep their order. *)
Definition remove (tok : string) (l : list string) : list string :=
  filter (λ t, t ≠ tok) l.

End DOMTokenList.

Record Element := mkElement {
  tagName : string;
  attributes : gmap string string;   (* content attributes other than class *)
  classList : list string
}.

Definition setClassList (f : list string → list string) (e : Element) : Element :=
  {| tagName := tagName e; attributes := attributes e; classList := f (classList e) |}.

(** Methods of the media element the script invokes. *)
Inductive MediaCall := CallPlay | CallPause.

Record World := mkWorld {
  document : gmap string Element;          (* elements by id *)
  mediaLog : list (string * MediaCall);    (* invocations, oldest first *)
  stylesheet : Element → bool              (* computed visibility, host-owned *)
}.

Definition setDocument (f : gmap string Element → gmap string Element) (w : World) : World :=
  {| document := f (document w); mediaLog := mediaLog w; stylesheet := stylesheet w |}.

Definition setStylesheet (css : Element → bool) (w : World) : World :=
  {| document := document w; mediaLog := mediaLog w; stylesheet := css |}.

(** A statement of a handler body: a transformer of the world. *)
Definition Stmt := World → World.

Declare Scope stmt_scope.
Delimit Scope stmt_scope with stmt.
Bind Scope stmt_scope with Stmt.

Notation "c1 ;; c2" := (λ w : World, c2%stmt (c1%stmt w))
  (at level 100, c2 at level 200, right associativity, only parsing) : stmt_scope.

(** [document.getElementById(id)]: the reference, or null. *)
Definition getElementById (doc : gmap string Element) (id : string) : option string :=
  (λ _, id) <$> doc !! id.

(** [r.classList.add(tok)] *)
Definition classList_add (r tok : string) : Stmt :=
  setDocument (alter (setClassList (DOMTokenList.add tok)) r).

(** [r.classList.remove(tok)] *)
Definition classList_remove (r tok : string) : Stmt :=
  setDocument (alter (setClassList (DOMTokenList.remove tok)) r).

(** [r.play()] *)
Definition play (r : string) : Stmt := λ w,
  {| document := document w; mediaLog := mediaLog w ++ [(r, CallPlay)];
     stylesheet := stylesheet w |}.

(** [r.pause()] *)
Definition pause (r : string) : Stmt := λ w,
  {| document := document w; mediaLog := mediaLog w ++ [(r, CallPause)];
     stylesheet := stylesheet w |}.

(** ** Listeners *)

Record Listener := mkListener {
  target : string;
  evtype : string;
  callback : Stmt
}.

(** [r.addEventListener(ty, cb)]: appended to the registrations. *)
Definition addEventListener (r ty : string) (cb : Stmt) (reg : list Listener) : list Listener :=
  reg ++ [{| target := r; evtype := ty; callback := cb |}].

(** Firing an event of type [ty] at element [r]. *)
Definition dispatchEvent (reg : list Listener) (r ty : string) : Stmt := λ w,
  foldl (λ acc l,
           if bool_decide (target l = r ∧ evtype l = ty) then callback l acc else acc)
        w reg.

(** ** The script *)

Abbreviation heroVideo := "heroVideo" (only parsing).
Abbreviation overlayPlayHeroVideo := "overlayPlayHeroVideo" (only parsing).
Abbreviation pauseHeroVideo := "pauseHeroVideo" (only parsing).

(** The three arrow functions, closed over the references they capture. *)
Definition onPlayClick (video playButton pauseButton : string) : Stmt :=
  (play video ;;
   classList_add playButton "d-none" ;;
   classList_remove pauseButton "pause-hidden")%stmt.

Definition onPauseClick (video : string) : Stmt :=
  pause video.

Definition onEnded (playButton pauseButton : string) : Stmt :=
  (classList_add pauseButton "pause-hidden" ;;
   classList_remove playButton "d-none")%stmt.

(** The [DOMContentLoaded] callback, run on the parsed document; it returns
    the registrations, starting from those of [reg]. *)
Definition DOMContentLoaded (doc : gmap string Element) (reg : list Listener) : list Listener :=
  let video := getElementById doc heroVideo in
  let playButton := getElementById doc overlayPlayHeroVideo in
  let pauseButton := getElementById doc pauseHeroVideo in
  match video, playButton, pauseButton with
  | Some video, Some playButton, Some pauseButton =>
      let reg := addEventListener playButton "click"
                   (onPlayClick video playButton pauseButton) reg in
      let reg := addEventListener pauseButton "click" (onPauseClick video) reg in
      let reg := addEventListener video "ended" (onEnded playButton pauseButton) reg in
      reg
  | _, _, _ => reg
  end.

(** The three events the controller reacts to. *)
Inductive Event := PlayClick | PauseClick | VideoEnded.

Definition eventTarget (ev : Event) : string :=
  match ev with
  | PlayClick => overlayPlayHeroVideo
  | PauseClick => pauseHeroVideo
  | VideoEnded => heroVideo
  end.

Definition eventType (ev : Event) : string :=
  match ev with
  | PlayClick | PauseClick => "click"
  | VideoEnded => "ended"
  end.

Definition fire (reg : list Listener) (ev : Event) : Stmt :=
  dispatchEvent reg (eventTarget ev) (eventType ev).

(** A page view: the script runs once on the loaded document, then events
    arrive one after the other. *)
Definition run (reg : list Listener) (evs : list Event) : Stmt := λ w,
  foldl (λ acc ev, fire reg ev acc) w evs.

(** ** Observations *)

(** Whether element [r] carries class [c]; [None] when there is no [r]. *)
Definition carries (w : World) (r c : string) : option bool :=
  (λ e, DOMTokenList.contains c (classList e)) <$> document w !! r.

(** Visibility as the two class names express it. *)
Definition playVisible (w : World) : option bool :=
  negb <$> carries w overlayPlayHeroVideo "d-none".

Definition pauseVisible (w : World) : option bool :=
  negb <$> carries w pauseHeroVideo "pause-hidden".

(** All three elements are in the document. *)
Definition allPresent (doc : gmap string Element) : Prop :=
  is_Some (doc !! heroVideo) ∧ is_Some (doc !! overlayPlayHeroVideo) ∧
  is_Some (doc !! pauseHeroVideo).

(** What the stylesheet makes of element [r]: the computed visibility that
    [getComputedStyle] would report. *)
Definition computedVisible (w : World) (r : string) : option bool :=
  stylesheet w <$> document w !! r.

(** The two controls are not both shown. *)
Definition atMostOneVisible (w : World) : Prop :=
  ¬ (playVisible w = Some true ∧ pauseVisible w = Some true).

(** ** What the script registers *)

#[global] Instance allPresent_dec doc : Decision (allPresent doc).
Proof. unfold allPresent. apply _. Defined.

(** The callback the loaded script has registered for each event. *)
Definition reaction (ev : Event) : Stmt :=
  match ev with
  | PlayClick => onPlayClick heroVideo overlayPlayHeroVideo pauseHeroVideo
  | PauseClick => onPauseClick heroVideo
  | VideoEnded => onEnded overlayPlayHeroVideo pauseHeroVideo
  end.

(** ** What a reaction may write *)

(** The class name the script writes on element [r], if any. *)
Definition recognized (r : string) : option string :=
  if decide (r = overlayPlayHeroVideo) then Some "d-none"
  else if decide (r = pauseHeroVideo) then Some "pause-hidden"
  else None.

(** The classes of [r] other than the recognized one, in order. *)
Definition otherClasses (r : string) (l : list string) : list string :=
  match recognized r with
  | Some tok => DOMTokenList.remove tok l
  | None => l
  end.

(** All of element [r] but the presence of its recognized class. *)
Definition rest (r : string) (e : Element) : string * gmap string string * list string :=
  (tagName e, attributes e, otherClasses r (classList e)).

(** ** Sample pages *)

(** A page with the hero video, as the script expects it: play shown, pause
    hidden. *)
Definition homePage : World :=
  {| document := list_to_map
       [ (heroVideo, mkElement "VIDEO" {[ "src" := "hero.mp4" ]} ["hero-video"]);
         (overlayPlayHeroVideo, mkElement "BUTTON" ∅ ["btn"; "overlay-play"]);
         (pauseHeroVideo, mkElement "BUTTON" ∅ ["pause-hidden"; "btn"]) ];
     mediaLog := [];
     stylesheet := λ e,
       negb (DOMTokenList.contains "d-none" (classList e) ||
             DOMTokenList.contains "pause-hidden" (classList e)) |}.

(** The same page while the video plays. *)
Definition playingPage : World := reaction PlayClick homePage.

(** A page whose markup has the video and the play button, but no pause
    button. *)
Definition pageWithoutPause : gmap string Element :=
  delete pauseHeroVideo (document homePage).

(** ** A page view as a whole *)

#[global] Instance Event_eq_dec : EqDecision Event.
Proof. solve_decision. Defined.

(** The call on the video that the listener of an event makes, if any. *)
Definition callOf (ev : Event) : option (string * MediaCall) :=
  match ev with
  | PlayClick => Some (heroVideo, CallPlay)
  | PauseClick => Some (heroVideo, CallPause)
  | VideoEnded => None
  end.

(** What the listener of [ev] writes for class [d] of element [s]: [Some true]
    for added, [Some false] for removed, [None] for not touched. *)
Definition writes (ev : Event) (s d : string) : option bool :=
  match ev with
  | PlayClick =>
      if decide (s = overlayPlayHeroVideo ∧ d = "d-none") then Some true
      else if decide (s = pauseHeroVideo ∧ d = "pause-hidden") then Some false
      else None
  | PauseClick => None
  | VideoEnded =>
      if decide (s = pauseHeroVideo ∧ d = "pause-hidden") then Some true
      else if decide (s = overlayPlayHeroVideo ∧ d = "d-none") then Some false
      else None
  end.

(** The last event of a sequence whose listener writes a class. *)
Definition lastWrite (evs : list Event) : option Event :=
  last (filter (λ ev, ev ≠ PauseClick) evs).

(** The reaction to that last event alone. *)
Definition collapse (evs : list Event) : Stmt :=
  match lastWrite evs with
  | Some ev => reaction ev
  | None => λ w, w
  end.

(** The registrations when the page includes the script [n] times. *)
Definition included (n : nat) (doc : gmap string Element) : list Listener :=
  Nat.iter n (DOMContentLoaded doc) [].

(** Closed side conditions on the sample pages, by evaluation. *)
Ltac by_eval := vm_compute; first [reflexivity | eexists; reflexivity].

(** ** Token lists *)

Section tokens.
Import DOMTokenList.
Implicit Types (t u : string) (l : list string).

Lemma contains_add t l : contains t (add t l) = true.
Proof.
  unfold contains, add. apply bool_decide_eq_true.
  case_decide; [done | set_solver].
Qed.

Lemma contains_add_ne t u l : t ≠ u → contains u (add t l) = contains u l.
Proof.
  intros Hne. unfold contains, add. case_decide; [done |].
  apply bool_decide_ext. set_solver.
Qed.

Lemma contains_remove t l : contains t (remove t l) = false.
Proof.
  unfold contains, remove. apply bool_decide_eq_false.
  rewrite list_elem_of_filter. tauto.
Qed.

Lemma contains_remove_ne t u l : t ≠ u → contains u (remove t l) = contains u l.
Proof.
  intros Hne. unfold contains, remove. apply bool_decide_ext.
  rewrite list_elem_of_filter. naive_solver.
Qed.

Lemma remove_absent t l : t ∉ l → remove t l = l.
Proof.
  unfold remove. induction l as [| u l IH]; [done |].
  rewrite not_elem_of_cons. intros [Hne Hl].
  rewrite filter_cons_True by done. by rewrite IH.
Qed.

Lemma add_idemp t l : add t (add t l) = add t l.
Proof.
  unfold add at 1. rewrite decide_True; [done |].
  unfold add. case_decide; set_solver.
Qed.

Lemma remove_idemp t l : remove t (remove t l) = remove t l.
Proof.
  apply remove_absent. unfold remove. rewrite list_elem_of_filter. tauto.
Qed.

(** Adding a token moves no other token. *)
Lemma remove_add t l : remove t (add t l) = remove t l.
Proof.
  unfold add. case_decide; [done |].
  unfold remove. rewrite filter_app, filter_cons_False, filter_nil by tauto.
  apply app_nil_r.
Qed.

Lemma NoDup_add t l : NoDup l → NoDup (add t l).
Proof.
  intros Hl. unfold add. case_decide; [done |].
  apply NoDup_app. split_and!; [done | set_solver | apply NoDup_singleton].
Qed.

Lemma NoDup_remove t l : NoDup l → NoDup (remove t l).
Proof. apply NoDup_filter. Qed.
End tokens.

(** ** The store under the primitive operations *)

Section store.
Implicit Types (w : World) (r s c d : string).

Lemma carries_add w r c :
  is_Some (document w !! r) → carries (classList_add r c w) r c = Some true.
Proof.
  intros [e He]. unfold carries, classList_add. simpl.
  rewrite lookup_alter_eq, He. simpl. by rewrite contains_add.
Qed.

Lemma carries_remove w r c :
  is_Some (document w !! r) → carries (classList_remove r c w) r c = Some false.
Proof.
  intros [e He]. unfold carries, classList_remove. simpl.
  rewrite lookup_alter_eq, He. simpl. by rewrite contains_remove.
Qed.

(** A class-list write is seen only at the element and the token written. *)
Lemma carries_add_frame w r c s d :
  r ≠ s ∨ c ≠ d → carries (classList_add r c w) s d = carries w s d.
Proof.
  intros Hne. unfold carries, classList_add. simpl.
  destruct (decide (r = s)) as [<- | Hr].
  - destruct Hne as [? | Hc]; [done |].
    rewrite lookup_alter_eq. destruct (document w !! r); [| done].
    simpl. by rewrite contains_add_ne.
  - by rewrite lookup_alter_ne.
Qed.

Lemma carries_remove_frame w r c s d :
  r ≠ s ∨ c ≠ d → carries (classList_remove r c w) s d = carries w s d.
Proof.
  intros Hne. unfold carries, classList_remove. simpl.
  destruct (decide (r = s)) as [<- | Hr].
  - destruct Hne as [? | Hc]; [done |].
    rewrite lookup_alter_eq. destruct (document w !! r); [| done].
    simpl. by rewrite contains_remove_ne.
  - by rewrite lookup_alter_ne.
Qed.

Lemma present_alter (f : Element → Element) (doc : gmap string Element) r s :
  is_Some (alter f r doc !! s) ↔ is_Some (doc !! s).
Proof.
  destruct (decide (r = s)) as [<- | Hr].
  - rewrite lookup_alter_eq. apply fmap_is_Some.
  - by rewrite lookup_alter_ne.
Qed.

End store.

(** ** Registration, and what an event then runs *)

Section registration.
Implicit Types (doc : gmap string Element) (reg : list Listener) (w : World).

Lemma getElementById_Some doc id :
  is_Some (doc !! id) → getElementById doc id = Some id.
Proof. intros [e He]. unfold getElementById. by rewrite He. Qed.

Lemma DOMContentLoaded_present doc reg :
  allPresent doc →
  DOMContentLoaded doc reg =
    reg ++ [ mkListener overlayPlayHeroVideo "click" (reaction PlayClick);
             mkListener pauseHeroVideo "click" (reaction PauseClick);
             mkListener heroVideo "ended" (reaction VideoEnded) ].
Proof.
  intros (Hv & Hp & Hq). unfold DOMContentLoaded.
  rewrite !getElementById_Some by done.
  unfold addEventListener. by rewrite <- !app_assoc.
Qed.

Lemma not_allPresent doc :
  ¬ allPresent doc ↔
  doc !! heroVideo = None ∨ doc !! overlayPlayHeroVideo = None ∨
  doc !! pauseHeroVideo = None.
Proof.
  unfold allPresent. split.
  - intros H.
    destruct (doc !! heroVideo) eqn:Ev; [| by left].
    destruct (doc !! overlayPlayHeroVideo) eqn:Ep; [| by right; left].
    destruct (doc !! pauseHeroVideo) eqn:Eq; [| by right; right].
    destruct H. eauto.
  - intros [H | [H | H]] (Hv & Hp & Hq); rewrite H in *;
      by eapply is_Some_None.
Qed.

Lemma DOMContentLoaded_absent doc reg :
  ¬ allPresent doc → DOMContentLoaded doc reg = reg.
Proof.
  rewrite not_allPresent. unfold DOMContentLoaded, getElementById.
  intros [H | [H | H]]; rewrite H; simpl;
    repeat (match goal with |- context [?m !! ?k] => destruct (m !! k) end; simpl);
    done.
Qed.

Lemma fire_loaded doc ev w :
  allPresent doc → fire (DOMContentLoaded doc []) ev w = reaction ev w.
Proof.
  intros H. rewrite DOMContentLoaded_present by done. by destruct ev.
Qed.

Lemma fire_not_loaded doc ev w :
  ¬ allPresent doc → fire (DOMContentLoaded doc []) ev w = w.
Proof. intros H. by rewrite DOMContentLoaded_absent. Qed.
End registration.

(** ** The script on the sample pages *)

Example homePage_listeners :
  map (λ l, (target l, evtype l)) (DOMContentLoaded (document homePage) []) =
  [ (overlayPlayHeroVideo, "click"); (pauseHeroVideo, "click"); (heroVideo, "ended") ].
Proof. reflexivity. Qed.

Example pageWithoutPause_listeners : DOMContentLoaded pageWithoutPause [] = [].
Proof. reflexivity. Qed.

Example homePage_computed :
  computedVisible homePage overlayPlayHeroVideo = Some true ∧
  computedVisible homePage pauseHeroVideo = Some false.
Proof. split; by_eval. Qed.

Example playingPage_classes :
  classList <$> document playingPage !! overlayPlayHeroVideo =
    Some ["btn"; "overlay-play"; "d-none"] ∧
  classList <$> document playingPage !! pauseHeroVideo = Some ["btn"] ∧
  mediaLog playingPage = [(heroVideo, CallPlay)].
Proof. split_and!; by_eval. Qed.

(** After the video has ended the controls carry the classes they started
    with; ['pause-hidden'], removed and added again, is now the last token. *)
Example endedPage_classes :
  let w := run (DOMContentLoaded (document homePage) []) [PlayClick; VideoEnded] homePage in
  classList <$> document w !! overlayPlayHeroVideo = Some ["btn"; "overlay-play"] ∧
  classList <$> document w !! pauseHeroVideo = Some ["btn"; "pause-hidden"] ∧
  mediaLog w = [(heroVideo, CallPlay)].
Proof. split_and!; by_eval. Qed.

Example pausedPage_log :
  let w := fire (DOMContentLoaded (document homePage) []) PauseClick playingPage in
  mediaLog w = [(heroVideo, CallPlay); (heroVideo, CallPause)] ∧
  document w = document playingPage.
Proof. split; by_eval. Qed.

(** ** The reactions *)

Section reactions.
Implicit Types (w : World) (doc : gmap string Element).

Lemma reaction_PlayClick_log w :
  mediaLog (reaction PlayClick w) = mediaLog w ++ [(heroVideo, CallPlay)].
Proof. done. Qed.

Lemma reaction_PlayClick_play w :
  is_Some (document w !! overlayPlayHeroVideo) →
  carries (reaction PlayClick w) overlayPlayHeroVideo "d-none" = Some true.
Proof.
  intros Hp. unfold reaction, onPlayClick.
  rewrite carries_remove_frame by (by left).
  by apply carries_add.
Qed.

Lemma reaction_PlayClick_pause w :
  is_Some (document w !! pauseHeroVideo) →
  carries (reaction PlayClick w) pauseHeroVideo "pause-hidden" = Some false.
Proof.
  intros Hq. unfold reaction, onPlayClick.
  apply carries_remove. simpl. by apply present_alter.
Qed.

Lemma reaction_VideoEnded_pause w :
  is_Some (document w !! pauseHeroVideo) →
  carries (reaction VideoEnded w) pauseHeroVideo "pause-hidden" = Some true.
Proof.
  intros Hq. unfold reaction, onEnded.
  rewrite carries_remove_frame by (by left).
  by apply carries_add.
Qed.

Lemma reaction_VideoEnded_play w :
  is_Some (document w !! overlayPlayHeroVideo) →
  carries (reaction VideoEnded w) overlayPlayHeroVideo "d-none" = Some false.
Proof.
  intros Hp. unfold reaction, onEnded.
  apply carries_remove. simpl. by apply present_alter.
Qed.

Lemma reaction_allPresent ev w :
  allPresent (document (reaction ev w)) ↔ allPresent (document w).
Proof.
  unfold allPresent.
  destruct ev; simpl; by rewrite ?present_alter.
Qed.
End reactions.

(** C1. With the video, the play control and the pause control all in the
    page, the play control not carrying ['d-none'] and the pause control
    carrying ['pause-hidden'], a click on the play control invokes
    [video.play()] exactly once (the log of media calls grows by that one
    entry), leaves the play control carrying ['d-none'] and leaves the pause
    control not carrying ['pause-hidden']. *)
Theorem play_transition (w : World) :
  allPresent (document w) →
  carries w overlayPlayHeroVideo "d-none" = Some false →
  carries w pauseHeroVideo "pause-hidden" = Some true →
  let w' := fire (DOMContentLoaded (document w) []) PlayClick w in
  mediaLog w' = mediaLog w ++ [(heroVideo, CallPlay)] ∧
  carries w' overlayPlayHeroVideo "d-none" = Some true ∧
  carries w' pauseHeroVideo "pause-hidden" = Some false.
Proof.
  intros Hall Hp Hq w'. subst w'. rewrite fire_loaded by done.
  destruct Hall as (Hv & Hp' & Hq').
  split_and!.
  - apply reaction_PlayClick_log.
  - by apply reaction_PlayClick_play.
  - by apply reaction_PlayClick_pause.
Qed.

Lemma homePage_allPresent : allPresent (document homePage).
Proof. unfold allPresent. split_and!; by_eval. Defined.

Lemma play_transition_witness :
  (allPresent (document homePage) ∧
   carries homePage overlayPlayHeroVideo "d-none" = Some false ∧
   carries homePage pauseHeroVideo "pause-hidden" = Some true) ∧
  let w' := fire (DOMContentLoaded (document homePage) []) PlayClick homePage in
  mediaLog w' = [(heroVideo, CallPlay)] ∧
  carries w' overlayPlayHeroVideo "d-none" = Some true ∧
  carries w' pauseHeroVideo "pause-hidden" = Some false.
Proof.
  split.
  - split_and!; [exact homePage_allPresent | by_eval | by_eval].
  - apply (play_transition homePage); [exact homePage_allPresent | by_eval | by_eval].
Defined.

(** C2. With the three elements in the page, whatever classes the two
    controls carry beforehand, the ['ended'] event on the video leaves the
    pause control carrying ['pause-hidden'] and the play control not carrying
    ['d-none']: play shown, pause hidden, as initially. *)
Theorem ended_reset (w : World) :
  allPresent (document w) →
  let w' := fire (DOMContentLoaded (document w) []) VideoEnded w in
  carries w' pauseHeroVideo "pause-hidden" = Some true ∧
  carries w' overlayPlayHeroVideo "d-none" = Some false ∧
  playVisible w' = Some true ∧ pauseVisible w' = Some false.
Proof.
  intros Hall w'. subst w'. rewrite fire_loaded by done.
  destruct Hall as (Hv & Hp & Hq). unfold playVisible, pauseVisible.
  rewrite reaction_VideoEnded_pause, reaction_VideoEnded_play by done.
  done.
Qed.

Lemma playingPage_allPresent : allPresent (document playingPage).
Proof. unfold allPresent. split_and!; by_eval. Defined.

Lemma ended_reset_witness :
  allPresent (document playingPage) ∧
  let w' := fire (DOMContentLoaded (document playingPage) []) VideoEnded playingPage in
  carries w' pauseHeroVideo "pause-hidden" = Some true ∧
  carries w' overlayPlayHeroVideo "d-none" = Some false ∧
  playVisible w' = Some true ∧ pauseVisible w' = Some false.
Proof.
  split; [exact playingPage_allPresent |].
  apply (ended_reset playingPage). exact playingPage_allPresent.
Defined.

(** C3. With the three elements in the page, a click on the pause control
    invokes [video.pause()] exactly once and changes nothing in the
    document: every element, hence every class of both controls, is as
    before the click; in particular a hidden play control stays hidden. *)
Theorem pause_invocation (w : World) :
  allPresent (document w) →
  let w' := fire (DOMContentLoaded (document w) []) PauseClick w in
  mediaLog w' = mediaLog w ++ [(heroVideo, CallPause)] ∧
  document w' = document w ∧
  (∀ r c, carries w' r c = carries w r c) ∧
  playVisible w' = playVisible w ∧ pauseVisible w' = pauseVisible w.
Proof.
  intros Hall w'. subst w'. rewrite fire_loaded by done. done.
Qed.

Lemma pause_invocation_witness :
  allPresent (document playingPage) ∧
  let w' := fire (DOMContentLoaded (document playingPage) []) PauseClick playingPage in
  mediaLog w' = mediaLog playingPage ++ [(heroVideo, CallPause)] ∧
  document w' = document playingPage ∧
  (∀ r c, carries w' r c = carries playingPage r c) ∧
  playVisible w' = playVisible playingPage ∧ pauseVisible w' = pauseVisible playingPage.
Proof.
  split; [exact playingPage_allPresent |].
  apply (pause_invocation playingPage). exact playingPage_allPresent.
Defined.

(** C4. Binding is all or nothing. If any of the three elements is missing
    from the document, whichever and however many, the script registers no
    listener: the registrations are those there were. If all three are
    there, it registers exactly three: click on the play control, click on
    the pause control, ended on the video. *)
Theorem initialization_guard (doc : gmap string Element) (reg : list Listener) :
  (doc !! heroVideo = None ∨ doc !! overlayPlayHeroVideo = None ∨
   doc !! pauseHeroVideo = None →
   DOMContentLoaded doc reg = reg) ∧
  (allPresent doc →
   DOMContentLoaded doc reg =
     reg ++ [ mkListener overlayPlayHeroVideo "click" (reaction PlayClick);
              mkListener pauseHeroVideo "click" (reaction PauseClick);
              mkListener heroVideo "ended" (reaction VideoEnded) ]) ∧
  (length (DOMContentLoaded doc reg) = length reg ∨
   length (DOMContentLoaded doc reg) = length reg + 3).
Proof.
  split_and!.
  - intros H. apply DOMContentLoaded_absent. by apply not_allPresent.
  - apply DOMContentLoaded_present.
  - destruct (decide (allPresent doc)) as [H | H].
    + right. rewrite DOMContentLoaded_present by done. by rewrite length_app.
    + left. by rewrite DOMContentLoaded_absent.
Qed.

Lemma initialization_guard_witness :
  pageWithoutPause !! pauseHeroVideo = None ∧
  is_Some (pageWithoutPause !! heroVideo) ∧
  is_Some (pageWithoutPause !! overlayPlayHeroVideo) ∧
  DOMContentLoaded pageWithoutPause [] = [] ∧
  length (DOMContentLoaded (document homePage) []) = 3.
Proof.
  split_and!; [by_eval | by_eval | by_eval | |].
  - apply (initialization_guard pageWithoutPause []). right; right. by_eval.
  - destruct (initialization_guard (document homePage) []) as (_ & H & _).
    rewrite H; [reflexivity | exact homePage_allPresent].
Defined.

(** ** Visibility across a page view *)

Section invariant.
Implicit Types (w : World) (r c : string).

Lemma carries_add_not_false w r c : carries (classList_add r c w) r c ≠ Some false.
Proof.
  unfold carries, classList_add. simpl. rewrite lookup_alter_eq.
  destruct (document w !! r); simpl; [| done].
  by rewrite contains_add.
Qed.

Lemma reaction_PlayClick_hides_play w : playVisible (reaction PlayClick w) ≠ Some true.
Proof.
  unfold playVisible, reaction, onPlayClick.
  rewrite carries_remove_frame by (by left).
  pose proof (carries_add_not_false (play heroVideo w) overlayPlayHeroVideo "d-none") as H.
  destruct (carries _ _ _) as [[] |]; naive_solver.
Qed.

Lemma reaction_VideoEnded_hides_pause w : pauseVisible (reaction VideoEnded w) ≠ Some true.
Proof.
  unfold pauseVisible, reaction, onEnded.
  rewrite carries_remove_frame by (by left).
  pose proof (carries_add_not_false w pauseHeroVideo "pause-hidden") as H.
  destruct (carries _ _ _) as [[] |]; naive_solver.
Qed.

Lemma reaction_atMostOneVisible ev w :
  atMostOneVisible w → atMostOneVisible (reaction ev w).
Proof.
  unfold atMostOneVisible. destruct ev.
  - intros _ [H _]. by apply reaction_PlayClick_hides_play in H.
  - done.
  - intros _ [_ H]. by apply reaction_VideoEnded_hides_pause in H.
Qed.

Lemma fire_atMostOneVisible doc ev w :
  atMostOneVisible w → atMostOneVisible (fire (DOMContentLoaded doc []) ev w).
Proof.
  intros H. destruct (decide (allPresent doc)).
  - rewrite fire_loaded by done. by apply reaction_atMostOneVisible.
  - by rewrite fire_not_loaded.
Qed.

Lemma run_cons reg ev evs w : run reg (ev :: evs) w = run reg evs (fire reg ev w).
Proof. done. Qed.

Lemma run_atMostOneVisible doc evs w :
  atMostOneVisible w → atMostOneVisible (run (DOMContentLoaded doc []) evs w).
Proof.
  revert w. induction evs as [| ev evs IH]; intros w H; [done |].
  rewrite run_cons. by apply IH, fire_atMostOneVisible.
Qed.
End invariant.

(** C5. From a page with the play control shown and the pause control
    hidden, the two controls are never both shown: the predicate holds
    initially, each reaction (play click, pause click, video ended)
    preserves it, and so it holds after every sequence of events. *)
Theorem at_most_one_visible (w0 : World) :
  playVisible w0 = Some true →
  pauseVisible w0 = Some false →
  let reg := DOMContentLoaded (document w0) [] in
  atMostOneVisible w0 ∧
  (∀ ev w, atMostOneVisible w → atMostOneVisible (fire reg ev w)) ∧
  (∀ evs, atMostOneVisible (run reg evs w0)).
Proof.
  intros Hp Hq reg.
  assert (atMostOneVisible w0) as H0.
  { unfold atMostOneVisible. rewrite Hq. by intros [_ ?]. }
  split_and!; [done | |].
  - intros ev w. apply fire_atMostOneVisible.
  - intros evs. by apply run_atMostOneVisible.
Qed.

Lemma at_most_one_visible_witness :
  (playVisible homePage = Some true ∧ pauseVisible homePage = Some false) ∧
  atMostOneVisible
    (run (DOMContentLoaded (document homePage) [])
         [PlayClick; PauseClick; PlayClick; VideoEnded; PauseClick] homePage).
Proof.
  split; [split_and!; by_eval |].
  apply (at_most_one_visible homePage); by_eval.
Defined.

(** ** Repeated and successive reactions *)

Section idempotence.
Implicit Types (w : World) (doc : gmap string Element).

Lemma alter_setClassList_idemp (f : list string → list string) (r : string) doc :
  (∀ l, f (f l) = f l) →
  alter (setClassList f) r (alter (setClassList f) r doc) =
  alter (setClassList f) r doc.
Proof.
  intros Hf. rewrite alter_alter_eq. apply alter_ext.
  intros e _. unfold setClassList. simpl. by rewrite Hf.
Qed.

Lemma reaction_VideoEnded_idemp w :
  reaction VideoEnded (reaction VideoEnded w) = reaction VideoEnded w.
Proof.
  unfold reaction, onEnded, classList_add, classList_remove, setDocument. simpl.
  f_equal.
  rewrite (alter_alter_ne _ _ _ pauseHeroVideo overlayPlayHeroVideo) by done.
  rewrite (alter_setClassList_idemp (DOMTokenList.remove "d-none"))
    by apply remove_idemp.
  by rewrite (alter_setClassList_idemp (DOMTokenList.add "pause-hidden"))
    by apply add_idemp.
Qed.

Lemma reaction_PlayClick_idemp_document w :
  document (reaction PlayClick (reaction PlayClick w)) =
  document (reaction PlayClick w).
Proof.
  unfold reaction, onPlayClick, classList_add, classList_remove, setDocument. simpl.
  rewrite (alter_alter_ne _ _ _ overlayPlayHeroVideo pauseHeroVideo) by done.
  rewrite (alter_setClassList_idemp (DOMTokenList.remove "pause-hidden"))
    by apply remove_idemp.
  by rewrite (alter_setClassList_idemp (DOMTokenList.add "d-none"))
    by apply add_idemp.
Qed.
End idempotence.

(** C6. Dispatching ['ended'] twice in succession leaves the world, and so
    the classes of both controls, exactly as dispatching it once does. *)
Theorem ended_idempotent (doc : gmap string Element) (w : World) :
  let reg := DOMContentLoaded doc [] in
  run reg [VideoEnded; VideoEnded] w = run reg [VideoEnded] w.
Proof.
  intros reg. subst reg. unfold run. simpl.
  destruct (decide (allPresent doc)).
  - rewrite !fire_loaded by done. apply reaction_VideoEnded_idemp.
  - by rewrite !fire_not_loaded.
Qed.

(** C7. From play shown and pause hidden, a click on play gives play hidden
    and pause shown with [video.play()] invoked once; the ['ended'] event
    then gives play shown and pause hidden again, with no further call on
    the video. *)
Theorem play_then_ended (w0 : World) :
  allPresent (document w0) →
  playVisible w0 = Some true →
  pauseVisible w0 = Some false →
  let reg := DOMContentLoaded (document w0) [] in
  let w1 := fire reg PlayClick w0 in
  let w2 := fire reg VideoEnded w1 in
  (playVisible w1 = Some false ∧ pauseVisible w1 = Some true ∧
   mediaLog w1 = mediaLog w0 ++ [(heroVideo, CallPlay)]) ∧
  (playVisible w2 = Some true ∧ pauseVisible w2 = Some false ∧
   mediaLog w2 = mediaLog w1).
Proof.
  intros Hall Hp Hq reg w1 w2. subst reg w1 w2.
  rewrite !fire_loaded by done.
  pose proof Hall as (Hv & Hp' & Hq').
  pose proof (proj2 (reaction_allPresent PlayClick w0) Hall) as (Hv1 & Hp1 & Hq1).
  unfold playVisible, pauseVisible.
  rewrite reaction_VideoEnded_pause, reaction_VideoEnded_play by done.
  rewrite reaction_PlayClick_play, reaction_PlayClick_pause by done.
  done.
Qed.

Lemma play_then_ended_witness :
  (allPresent (document homePage) ∧
   playVisible homePage = Some true ∧ pauseVisible homePage = Some false) ∧
  let reg := DOMContentLoaded (document homePage) [] in
  let w1 := fire reg PlayClick homePage in
  let w2 := fire reg VideoEnded w1 in
  (playVisible w1 = Some false ∧ pauseVisible w1 = Some true ∧
   mediaLog w1 = mediaLog homePage ++ [(heroVideo, CallPlay)]) ∧
  (playVisible w2 = Some true ∧ pauseVisible w2 = Some false ∧
   mediaLog w2 = mediaLog w1).
Proof.
  split; [split_and!; [exact homePage_allPresent | by_eval | by_eval] |].
  apply (play_then_ended homePage); [exact homePage_allPresent | by_eval | by_eval].
Defined.

(** C10. A second click on the play control leaves every element of the
    document, and so the classes of both controls, as the first click left
    them; [video.play()] is invoked once per click, twice in all. *)
Theorem play_idempotent (w : World) :
  allPresent (document w) →
  let reg := DOMContentLoaded (document w) [] in
  document (run reg [PlayClick; PlayClick] w) = document (run reg [PlayClick] w) ∧
  mediaLog (run reg [PlayClick] w) = mediaLog w ++ [(heroVideo, CallPlay)] ∧
  mediaLog (run reg [PlayClick; PlayClick] w) =
    mediaLog w ++ [(heroVideo, CallPlay); (heroVideo, CallPlay)].
Proof.
  intros Hall reg. subst reg. unfold run. simpl.
  rewrite !fire_loaded by done.
  split_and!.
  - apply reaction_PlayClick_idemp_document.
  - done.
  - simpl. by rewrite <- app_assoc.
Qed.

Lemma play_idempotent_witness :
  allPresent (document homePage) ∧
  let reg := DOMContentLoaded (document homePage) [] in
  document (run reg [PlayClick; PlayClick] homePage) =
    document (run reg [PlayClick] homePage) ∧
  mediaLog (run reg [PlayClick] homePage) = [(heroVideo, CallPlay)] ∧
  mediaLog (run reg [PlayClick; PlayClick] homePage) =
    [(heroVideo, CallPlay); (heroVideo, CallPlay)].
Proof.
  split; [exact homePage_allPresent |].
  apply (play_idempotent homePage). exact homePage_allPresent.
Defined.

(** ** What a reaction leaves alone *)

Section frame.
Implicit Types (w : World) (r c : string).

Lemma rest_add r c e :
  recognized r = Some c → rest r (setClassList (DOMTokenList.add c) e) = rest r e.
Proof.
  intros Hr. unfold rest, otherClasses. rewrite Hr. simpl. by rewrite remove_add.
Qed.

Lemma rest_remove r c e :
  recognized r = Some c → rest r (setClassList (DOMTokenList.remove c) e) = rest r e.
Proof.
  intros Hr. unfold rest, otherClasses. rewrite Hr. simpl. by rewrite remove_idemp.
Qed.

Lemma rest_classList_add w r c s :
  recognized r = Some c →
  rest s <$> document (classList_add r c w) !! s = rest s <$> document w !! s.
Proof.
  intros Hr. unfold classList_add. simpl.
  destruct (decide (r = s)) as [<- | Hne].
  - rewrite lookup_alter_eq. destruct (document w !! r); [| done].
    simpl. by rewrite rest_add.
  - by rewrite lookup_alter_ne.
Qed.

Lemma rest_classList_remove w r c s :
  recognized r = Some c →
  rest s <$> document (classList_remove r c w) !! s = rest s <$> document w !! s.
Proof.
  intros Hr. unfold classList_remove. simpl.
  destruct (decide (r = s)) as [<- | Hne].
  - rewrite lookup_alter_eq. destruct (document w !! r); [| done].
    simpl. by rewrite rest_remove.
  - by rewrite lookup_alter_ne.
Qed.

Lemma reaction_rest ev w s :
  rest s <$> document (reaction ev w) !! s = rest s <$> document w !! s.
Proof.
  destruct ev; unfold reaction, onPlayClick, onPauseClick, onEnded; [| done |].
  - rewrite rest_classList_remove by done. by rewrite rest_classList_add.
  - rewrite rest_classList_remove by done. by rewrite rest_classList_add.
Qed.

Lemma reaction_carries ev w r c :
  recognized r ≠ Some c → carries (reaction ev w) r c = carries w r c.
Proof.
  intros Hr.
  assert (overlayPlayHeroVideo ≠ r ∨ "d-none" ≠ c) as Hp.
  { destruct (decide (overlayPlayHeroVideo = r)) as [<- | ?]; [right | by left].
    intros <-. by apply Hr. }
  assert (pauseHeroVideo ≠ r ∨ "pause-hidden" ≠ c) as Hq.
  { destruct (decide (pauseHeroVideo = r)) as [<- | ?]; [right | by left].
    intros <-. by apply Hr. }
  destruct ev; unfold reaction, onPlayClick, onPauseClick, onEnded; [| done |].
  - rewrite carries_remove_frame by done. by rewrite carries_add_frame.
  - rewrite carries_remove_frame by done. by rewrite carries_add_frame.
Qed.

Lemma reaction_setStylesheet ev css w :
  reaction ev (setStylesheet css w) = setStylesheet css (reaction ev w).
Proof. by destruct ev. Qed.
End frame.

(** C8. Whatever the event and the state, a reaction changes the three
    elements (indeed every element of the document) only in whether the play
    control carries ['d-none'] and the pause control carries
    ['pause-hidden']: tag, attributes and every other class, in order, are as
    before, no element appears or disappears, and no other class membership
    changes. No reaction looks at what the stylesheet computes: run under
    another stylesheet, it does the same to the document and the log, and it
    leaves the stylesheet as it is. *)
Theorem reactions_frame (doc : gmap string Element) (ev : Event) (w : World) :
  let reg := DOMContentLoaded doc [] in
  let w' := fire reg ev w in
  (∀ r, rest r <$> document w' !! r = rest r <$> document w !! r) ∧
  (∀ r c, recognized r ≠ Some c → carries w' r c = carries w r c) ∧
  (∀ css, fire reg ev (setStylesheet css w) = setStylesheet css w') ∧
  stylesheet w' = stylesheet w.
Proof.
  intros reg w'. subst reg w'.
  destruct (decide (allPresent doc)).
  - rewrite fire_loaded by done. split_and!.
    + apply reaction_rest.
    + apply reaction_carries.
    + intros css. rewrite fire_loaded by done. apply reaction_setStylesheet.
    + by destruct ev.
  - rewrite fire_not_loaded by done. split_and!; [done | done | | done].
    intros css. by rewrite fire_not_loaded.
Qed.

Lemma reactions_frame_witness :
  recognized overlayPlayHeroVideo ≠ Some "btn" ∧
  carries (fire (DOMContentLoaded (document homePage) []) PlayClick homePage)
          overlayPlayHeroVideo "btn" =
  carries homePage overlayPlayHeroVideo "btn".
Proof.
  assert (recognized overlayPlayHeroVideo ≠ Some "btn") as H by (vm_compute; congruence).
  split; [exact H |].
  apply (reactions_frame (document homePage) PlayClick homePage). exact H.
Defined.

(** C9. What a play click or the ['ended'] event leaves as visibility of
    the two controls depends on the event alone: from any two states of a
    page with the three elements, the same event gives the same visibility
    of the play control and the same visibility of the pause control. The
    pause click writes nothing: in each run the document after it is the
    document before it. *)
Theorem visibility_determined_by_event (w1 w2 : World) :
  allPresent (document w1) →
  allPresent (document w2) →
  let reg1 := DOMContentLoaded (document w1) [] in
  let reg2 := DOMContentLoaded (document w2) [] in
  (∀ ev, ev ≠ PauseClick →
     playVisible (fire reg1 ev w1) = playVisible (fire reg2 ev w2) ∧
     pauseVisible (fire reg1 ev w1) = pauseVisible (fire reg2 ev w2)) ∧
  document (fire reg1 PauseClick w1) = document w1 ∧
  document (fire reg2 PauseClick w2) = document w2.
Proof.
  intros H1 H2 reg1 reg2. subst reg1 reg2.
  pose proof H1 as (_ & Hp1 & Hq1). pose proof H2 as (_ & Hp2 & Hq2).
  split_and!.
  - intros ev Hev. rewrite !fire_loaded by done.
    unfold playVisible, pauseVisible. destruct ev; [| done |].
    + by rewrite !reaction_PlayClick_play, !reaction_PlayClick_pause.
    + by rewrite !reaction_VideoEnded_play, !reaction_VideoEnded_pause.
  - by rewrite fire_loaded.
  - by rewrite fire_loaded.
Qed.

Lemma visibility_determined_by_event_witness :
  (allPresent (document homePage) ∧ allPresent (document playingPage)) ∧
  let reg1 := DOMContentLoaded (document homePage) [] in
  let reg2 := DOMContentLoaded (document playingPage) [] in
  (∀ ev, ev ≠ PauseClick →
     playVisible (fire reg1 ev homePage) = playVisible (fire reg2 ev playingPage) ∧
     pauseVisible (fire reg1 ev homePage) = pauseVisible (fire reg2 ev playingPage)) ∧
  document (fire reg1 PauseClick homePage) = document homePage ∧
  document (fire reg2 PauseClick playingPage) = document playingPage.
Proof.
  split; [split; [exact homePage_allPresent | exact playingPage_allPresent] |].
  apply (visibility_determined_by_event homePage playingPage);
    [exact homePage_allPresent | exact playingPage_allPresent].
Defined.

(** ** Whole page views *)

Section views.
Implicit Types (w : World) (doc : gmap string Element) (evs : list Event).
Implicit Types (r c s d : string).

Lemma carries_classList_add w r c s d :
  carries (classList_add r c w) s d =
  if decide (s = r ∧ d = c) then (λ _, true) <$> carries w s d else carries w s d.
Proof.
  case_decide as H.
  - destruct H as [-> ->]. unfold carries, classList_add. simpl.
    rewrite lookup_alter_eq. destruct (document w !! r); [| done].
    simpl. by rewrite contains_add.
  - apply carries_add_frame.
    destruct (decide (r = s)) as [<- |]; [| by left].
    right. intros <-. by apply H.
Qed.

Lemma carries_classList_remove w r c s d :
  carries (classList_remove r c w) s d =
  if decide (s = r ∧ d = c) then (λ _, false) <$> carries w s d else carries w s d.
Proof.
  case_decide as H.
  - destruct H as [-> ->]. unfold carries, classList_remove. simpl.
    rewrite lookup_alter_eq. destruct (document w !! r); [| done].
    simpl. by rewrite contains_remove.
  - apply carries_remove_frame.
    destruct (decide (r = s)) as [<- |]; [| by left].
    right. intros <-. by apply H.
Qed.

Lemma carries_play w r s d : carries (play r w) s d = carries w s d.
Proof. done. Qed.

(** The effect of a reaction on every class of every element. *)
Lemma carries_reaction ev w s d :
  carries (reaction ev w) s d =
  match writes ev s d with
  | Some b => (λ _, b) <$> carries w s d
  | None => carries w s d
  end.
Proof.
  destruct ev; unfold reaction, onPlayClick, onPauseClick, onEnded, writes; [| done |].
  - rewrite carries_classList_remove, carries_classList_add, carries_play.
    repeat case_decide; try done.
    destruct_and!; simplify_eq.
  - rewrite carries_classList_remove, carries_classList_add.
    repeat case_decide; try done.
    destruct_and!; simplify_eq.
Qed.

(** A later writing reaction leaves nothing of an earlier reaction. *)
Lemma carries_reaction_absorb ev1 ev2 w s d :
  ev2 ≠ PauseClick →
  carries (reaction ev2 (reaction ev1 w)) s d = carries (reaction ev2 w) s d.
Proof.
  intros Hev. rewrite (carries_reaction ev2 (reaction ev1 w)), (carries_reaction ev2 w).
  rewrite carries_reaction.
  destruct ev2; [| done |]; destruct ev1; unfold writes;
    repeat case_decide; try done; by destruct (carries w s d).
Qed.

Lemma carries_reaction_ext ev w1 w2 s d :
  carries w1 s d = carries w2 s d →
  carries (reaction ev w1) s d = carries (reaction ev w2) s d.
Proof. intros H. rewrite !carries_reaction. by rewrite H. Qed.

Lemma run_snoc reg evs ev w : run reg (evs ++ [ev]) w = fire reg ev (run reg evs w).
Proof. unfold run. by rewrite foldl_snoc. Qed.

Lemma lastWrite_snoc evs ev :
  lastWrite (evs ++ [ev]) = if decide (ev = PauseClick) then lastWrite evs else Some ev.
Proof.
  unfold lastWrite. rewrite filter_app. case_decide as H.
  - rewrite filter_cons_False, filter_nil by (intros ?; done).
    by rewrite app_nil_r.
  - rewrite filter_cons_True, filter_nil by done. apply last_snoc.
Qed.

Lemma mediaLog_reaction ev w :
  mediaLog (reaction ev w) = mediaLog w ++ option_list (callOf ev).
Proof. destruct ev; simpl; [done | done | by rewrite app_nil_r]. Qed.
Lemma run_not_loaded doc evs w :
  ¬ allPresent doc → run (DOMContentLoaded doc []) evs w = w.
Proof.
  intros Hnone. induction evs as [| ev evs IH] using rev_ind; [done |].
  by rewrite run_snoc, fire_not_loaded.
Qed.

Lemma carries_run doc evs w r c :
  allPresent doc →
  carries (run (DOMContentLoaded doc []) evs w) r c = carries (collapse evs w) r c.
Proof.
  intros Hall. induction evs as [| ev evs IH] using rev_ind; [done |].
  rewrite run_snoc, fire_loaded by done.
  unfold collapse in *. rewrite lastWrite_snoc. case_decide as Hev.
  - subst ev. exact IH.
  - rewrite (carries_reaction_ext ev _ _ r c IH).
    destruct (lastWrite evs); [| done].
    by apply carries_reaction_absorb.
Qed.

Lemma mediaLog_run doc evs w :
  allPresent doc →
  mediaLog (run (DOMContentLoaded doc []) evs w) = mediaLog w ++ omap callOf evs.
Proof.
  intros Hall. revert w. induction evs as [| ev evs IH]; intros w.
  - simpl. by rewrite app_nil_r.
  - rewrite run_cons, IH, fire_loaded, mediaLog_reaction by done.
    rewrite <- app_assoc. f_equal. by destruct ev.
Qed.
End views.

(** X1. With the script bound, a whole sequence of events leaves every
    element carrying exactly the classes that the last play click or
    ['ended'] event of the sequence, fired alone on the starting state, would
    leave; with no such event in the sequence, the classes it started
    with. Pause clicks and everything before that last event leave no
    trace in the classes. *)
Theorem run_collapse (doc : gmap string Element) (evs : list Event) (w : World) :
  allPresent doc →
  ∀ r c, carries (run (DOMContentLoaded doc []) evs w) r c = carries (collapse evs w) r c.
Proof. intros Hall r c. by apply carries_run. Qed.

Lemma run_collapse_witness :
  allPresent (document homePage) ∧
  ∀ r c,
    carries (run (DOMContentLoaded (document homePage) [])
                 [PlayClick; VideoEnded; PauseClick; PlayClick; PauseClick] homePage) r c =
    carries (reaction PlayClick homePage) r c.
Proof.
  split; [exact homePage_allPresent |].
  apply (run_collapse (document homePage)
           [PlayClick; VideoEnded; PauseClick; PlayClick; PauseClick] homePage).
  exact homePage_allPresent.
Defined.

(** X2. With the script bound, the calls made on the video during a
    sequence of events are, in order, one [play()] per play click and one
    [pause()] per pause click, all on [#heroVideo]; the ['ended'] event makes
    no call. *)
Theorem run_mediaLog (doc : gmap string Element) (evs : list Event) (w : World) :
  allPresent doc →
  mediaLog (run (DOMContentLoaded doc []) evs w) = mediaLog w ++ omap callOf evs.
Proof. apply mediaLog_run. Qed.

Lemma run_mediaLog_witness :
  allPresent (document homePage) ∧
  mediaLog (run (DOMContentLoaded (document homePage) [])
                [PlayClick; PauseClick; PlayClick; VideoEnded] homePage) =
  [(heroVideo, CallPlay); (heroVideo, CallPause); (heroVideo, CallPlay)].
Proof.
  split; [exact homePage_allPresent |].
  apply (run_mediaLog (document homePage)
           [PlayClick; PauseClick; PlayClick; VideoEnded] homePage).
  exact homePage_allPresent.
Defined.

(** X3. On a page whose pause control starts hidden, the pause control is
    shown after a sequence of events only if the last play click or ['ended']
    event of the sequence is a play click, and then [video.play()] has been
    invoked. *)
Theorem pause_shown_only_after_play
    (doc : gmap string Element) (evs : list Event) (w : World) :
  pauseVisible w = Some false →
  pauseVisible (run (DOMContentLoaded doc []) evs w) = Some true →
  lastWrite evs = Some PlayClick ∧
  (heroVideo, CallPlay) ∈ mediaLog (run (DOMContentLoaded doc []) evs w).
Proof.
  intros H0 H1.
  destruct (decide (allPresent doc)) as [Hall | Hnone].
  - assert (lastWrite evs = Some PlayClick) as Hlast.
    { unfold pauseVisible in H0, H1. rewrite carries_run in H1 by done.
      unfold collapse in H1. destruct (lastWrite evs) as [[] |]; [done | | |].
      - rewrite carries_reaction in H1. simpl in H1. congruence.
      - rewrite carries_reaction in H1. simpl in H1.
        destruct (carries w pauseHeroVideo "pause-hidden"); naive_solver.
      - congruence. }
    split; [done |].
    rewrite mediaLog_run by done. apply elem_of_app. right.
    apply list_elem_of_omap. exists PlayClick. split; [| done].
    apply last_Some_elem_of in Hlast.
    by apply list_elem_of_filter in Hlast as [_ ?].
  - rewrite run_not_loaded in H1 by done. congruence.
Qed.

Lemma pause_shown_only_after_play_witness :
  (pauseVisible homePage = Some false ∧
   pauseVisible (run (DOMContentLoaded (document homePage) [])
                     [PlayClick; PauseClick] homePage) = Some true) ∧
  lastWrite [PlayClick; PauseClick] = Some PlayClick ∧
  (heroVideo, CallPlay) ∈
    mediaLog (run (DOMContentLoaded (document homePage) []) [PlayClick; PauseClick] homePage).
Proof.
  split; [split; by_eval |].
  apply (pause_shown_only_after_play (document homePage) [PlayClick; PauseClick] homePage);
    by_eval.
Defined.



(** X5. On a page that lacks any of the three elements nothing ever
    happens: whatever events follow, including clicks on a play control that
    is there, the world stays as it is; [video.play()] is never invoked and
    no class changes. *)
Theorem unbound_page_inert (doc : gmap string Element) (evs : list Event) (w : World) :
  doc !! heroVideo = None ∨ doc !! overlayPlayHeroVideo = None ∨
  doc !! pauseHeroVideo = None →
  run (DOMContentLoaded doc []) evs w = w.
Proof. intros Hnone. apply run_not_loaded. by apply not_allPresent. Qed.

Lemma unbound_page_inert_witness :
  pageWithoutPause !! pauseHeroVideo = None ∧
  let w := setDocument (λ _, pageWithoutPause) homePage in
  run (DOMContentLoaded pageWithoutPause []) [PlayClick; PlayClick; VideoEnded] w = w.
Proof.
  split; [by_eval |].
  apply (unbound_page_inert pageWithoutPause). right; right. by_eval.
Defined.

(** ** The script included more than once; exact class lists *)

Section inclusion.
Implicit Types (w : World) (doc : gmap string Element) (evs : list Event).

Lemma dispatchEvent_app reg1 reg2 r ty w :
  dispatchEvent (reg1 ++ reg2) r ty w = dispatchEvent reg2 r ty (dispatchEvent reg1 r ty w).
Proof. unfold dispatchEvent. apply foldl_app. Qed.

Lemma included_S n doc :
  allPresent doc → included (S n) doc = included n doc ++ DOMContentLoaded doc [].
Proof.
  intros Hall. unfold included. simpl.
  by rewrite !(DOMContentLoaded_present doc) by done.
Qed.

Lemma fire_included n doc ev w :
  allPresent doc →
  fire (included n doc) ev w = run (DOMContentLoaded doc []) (replicate n ev) w.
Proof.
  intros Hall. induction n as [| n IH]; [done |].
  rewrite included_S by done. unfold fire at 1.
  rewrite dispatchEvent_app. fold (fire (included n doc) ev w).
  fold (fire (DOMContentLoaded doc []) ev (fire (included n doc) ev w)).
  by rewrite IH, replicate_S_end, run_snoc.
Qed.

Lemma document_reaction_ext ev w1 w2 :
  document w1 = document w2 → document (reaction ev w1) = document (reaction ev w2).
Proof. intros H. destruct ev; simpl; by rewrite H. Qed.

Lemma document_reaction_idemp ev w :
  document (reaction ev (reaction ev w)) = document (reaction ev w).
Proof.
  destruct ev.
  - apply reaction_PlayClick_idemp_document.
  - done.
  - by rewrite reaction_VideoEnded_idemp.
Qed.

Lemma document_run_replicate n doc ev w :
  allPresent doc →
  document (run (DOMContentLoaded doc []) (replicate (S n) ev) w) = document (reaction ev w).
Proof.
  intros Hall. induction n as [| n IH].
  - simpl. unfold run. simpl. by rewrite fire_loaded.
  - rewrite replicate_S_end, run_snoc, fire_loaded by done.
    rewrite (document_reaction_ext ev _ _ IH). apply document_reaction_idemp.
Qed.

Lemma fire_rest doc ev w r :
  rest r <$> document (fire (DOMContentLoaded doc []) ev w) !! r =
  rest r <$> document w !! r.
Proof.
  destruct (decide (allPresent doc)).
  - rewrite fire_loaded by done. apply reaction_rest.
  - by rewrite fire_not_loaded.
Qed.

Lemma fire_stylesheet doc ev w :
  stylesheet (fire (DOMContentLoaded doc []) ev w) = stylesheet w.
Proof.
  destruct (decide (allPresent doc)).
  - rewrite fire_loaded by done. by destruct ev.
  - by rewrite fire_not_loaded.
Qed.

Lemma add_remove tok (l : list string) :
  DOMTokenList.add tok (DOMTokenList.remove tok l) = DOMTokenList.remove tok l ++ [tok].
Proof.
  unfold DOMTokenList.add. rewrite decide_False; [done |].
  unfold DOMTokenList.remove. rewrite list_elem_of_filter. tauto.
Qed.
End inclusion.

(** X6. When the page includes the script [n] times, each inclusion binds
    its own three listeners, and one event then acts as [n] such events in a
    row under a single inclusion: for [n ≥ 1] the document is left as after
    one reaction, while a click invokes [play()] (or [pause()]) [n] times. *)
Theorem script_included_n_times
    (n : nat) (doc : gmap string Element) (ev : Event) (w : World) :
  allPresent doc →
  fire (included n doc) ev w = run (DOMContentLoaded doc []) (replicate n ev) w ∧
  document (fire (included (S n) doc) ev w) = document (reaction ev w) ∧
  mediaLog (fire (included n doc) ev w) = mediaLog w ++ omap callOf (replicate n ev).
Proof.
  intros Hall. split_and!.
  - by apply fire_included.
  - rewrite fire_included by done. by apply document_run_replicate.
  - rewrite fire_included by done. by apply mediaLog_run.
Qed.

Lemma script_included_n_times_witness :
  allPresent (document homePage) ∧
  document (fire (included 2 (document homePage)) PlayClick homePage) =
    document playingPage ∧
  mediaLog (fire (included 2 (document homePage)) PlayClick homePage) =
    [(heroVideo, CallPlay); (heroVideo, CallPlay)].
Proof.
  split; [exact homePage_allPresent |].
  destruct (script_included_n_times 2 (document homePage) PlayClick homePage
              homePage_allPresent) as (_ & _ & Hlog).
  destruct (script_included_n_times 1 (document homePage) PlayClick homePage
              homePage_allPresent) as (_ & Hdoc & _).
  split; [exact Hdoc | exact Hlog].
Defined.

(** X7. Over a whole page view, whatever the events and whether or not the
    script is bound: no element is added to or removed from the document,
    every element keeps its tag, its attributes and, in order, all its
    classes other than the recognized one, and the stylesheet is untouched. *)
Theorem run_frame (doc : gmap string Element) (evs : list Event) (w : World) :
  let w' := run (DOMContentLoaded doc []) evs w in
  (∀ r, rest r <$> document w' !! r = rest r <$> document w !! r) ∧
  dom (document w') = dom (document w) ∧
  stylesheet w' = stylesheet w.
Proof.
  intros w'. subst w'.
  assert (∀ r, rest r <$> document (run (DOMContentLoaded doc []) evs w) !! r =
               rest r <$> document w !! r) as Hrest.
  { intros r. induction evs as [| ev evs IH] using rev_ind; [done |].
    by rewrite run_snoc, fire_rest. }
  split_and!; [done | |].
  - apply set_eq. intros r. rewrite !elem_of_dom.
    rewrite <- (fmap_is_Some (rest r)), Hrest. apply fmap_is_Some.
  - clear Hrest. induction evs as [| ev evs IH] using rev_ind; [done |].
    by rewrite run_snoc, fire_stylesheet.
Qed.

(** X8. The exact class lists after a play click followed by ['ended'],
    from any state of a bound page: the play control's list is its former
    list without ['d-none']; the pause control's list is its former list
    without ['pause-hidden'], followed by ['pause-hidden']. So a play control
    that did not carry ['d-none'] is back exactly as it was, while
    ['pause-hidden'] always ends up last on the pause control. *)
Theorem play_then_ended_classes (doc : gmap string Element) (w : World) (p q : Element) :
  allPresent doc →
  document w !! overlayPlayHeroVideo = Some p →
  document w !! pauseHeroVideo = Some q →
  let w' := run (DOMContentLoaded doc []) [PlayClick; VideoEnded] w in
  classList <$> document w' !! overlayPlayHeroVideo =
    Some (DOMTokenList.remove "d-none" (classList p)) ∧
  classList <$> document w' !! pauseHeroVideo =
    Some (DOMTokenList.remove "pause-hidden" (classList q) ++ ["pause-hidden"]) ∧
  ("d-none" ∉ classList p → document w' !! overlayPlayHeroVideo = Some p).
Proof.
  intros Hall Hp Hq w'. subst w'. unfold run. simpl.
  rewrite !fire_loaded by done.
  unfold reaction, onEnded, onPlayClick, classList_add, classList_remove, setDocument.
  simpl.
  assert (alter (setClassList (DOMTokenList.remove "d-none")) overlayPlayHeroVideo
            (alter (setClassList (DOMTokenList.add "pause-hidden")) pauseHeroVideo
               (alter (setClassList (DOMTokenList.remove "pause-hidden")) pauseHeroVideo
                  (alter (setClassList (DOMTokenList.add "d-none")) overlayPlayHeroVideo
                     (document w)))) !! overlayPlayHeroVideo =
          Some (setClassList (DOMTokenList.remove "d-none") p)) as Hp'.
  { rewrite lookup_alter_eq, !lookup_alter_ne, lookup_alter_eq, Hp by done.
    simpl. unfold setClassList. simpl. by rewrite remove_add. }
  split_and!.
  - by rewrite Hp'.
  - rewrite lookup_alter_ne, !lookup_alter_eq, lookup_alter_ne, Hq by done.
    simpl. by rewrite add_remove.
  - intros Hdn. rewrite Hp'. f_equal. destruct p as [tg attrs cl].
    unfold setClassList. simpl in *. by rewrite remove_absent.
Qed.

Lemma play_then_ended_classes_witness :
  allPresent (document homePage) ∧
  let w' := run (DOMContentLoaded (document homePage) []) [PlayClick; VideoEnded] homePage in
  classList <$> document w' !! overlayPlayHeroVideo = Some ["btn"; "overlay-play"] ∧
  classList <$> document w' !! pauseHeroVideo = Some ["btn"; "pause-hidden"].
Proof.
  split; [exact homePage_allPresent |].
  destruct (play_then_ended_classes (document homePage) homePage
              (mkElement "BUTTON" ∅ ["btn"; "overlay-play"])
              (mkElement "BUTTON" ∅ ["pause-hidden"; "btn"])
              homePage_allPresent eq_refl eq_refl) as (Hp & Hq & _).
  split; [exact Hp | exact Hq].
Defined.
